(** * Prime resonance field: a shallow embedding of [prime_resonance_field.py]

    The numeric core of the script is embedded function by function:
    the trial-division comprehension that opens [generate_resonance_spiral],
    the dimensional tagging loop, the vectorised numpy projection and
    sonification, [tag_entanglement], and the head of the [__main__] driver.

    Python integers are [Z]; Python lists and one-dimensional numpy arrays are
    [list]s; exceptions are the [Raise] branch of [py].  numpy's float64
    arithmetic is read in the real numbers ([R]): rounding is outside the
    model, so every statement about [x], [y], [z] and [tones] is a statement
    about the real-valued formulas the code evaluates. *)

From Stdlib Require Import String.
From Stdlib Require Import ZArith Zdivisibility List Bool Lia Sorted.
From Stdlib Require Import Reals Lra.
Import ListNotations.

Open Scope Z_scope.

(** ** Python values and exceptions *)

Inductive exn : Type :=
| IndexError        (* list index out of range *)
| ValueError.       (* numpy: operands could not be broadcast together *)

Inductive py (A : Type) : Type :=
| Ok (a : A)
| Raise (e : exn).

Arguments Ok {A} a.
Arguments Raise {A} e.

Definition bind {A B : Type} (m : py A) (k : A -> py B) : py B :=
  match m with
  | Ok a => k a
  | Raise e => Raise e
  end.

Notation "x <- m ;; k" := (bind m (fun x => k))
  (at level 61, m at next level, right associativity).

(** [range(a, b)] for integers: empty as soon as [b <= a]. *)
Definition py_range (a b : Z) : list Z :=
  map (fun k => a + Z.of_nat k) (seq 0 (Z.to_nat (b - a))).

(** [l[i]]: a negative index counts from the end, and an index outside the
    list raises. *)
Definition getitem {A : Type} (l : list A) (i : Z) : py A :=
  let j := if i <? 0 then i + Z.of_nat (length l) else i in
  if j <? 0 then Raise IndexError
  else match nth_error l (Z.to_nat j) with
       | Some a => Ok a
       | None => Raise IndexError
       end.

(** ** The sieve: line 35 *)

(** [int(p**0.5)], read as the integer square root.  For a [p] a float64
    holds exactly (below [2^53]) the float expression yields this value or,
    where rounding carries the root up to the next integer, one more; the
    one further trial divisor is then above the root and below [p], so it
    rejects no prime and the comprehension selects the same candidates.
    Larger [p], which the script cannot reach by enumeration, are outside
    the model. *)
Definition int_sqrt (p : Z) : Z := Z.sqrt p.

(** [all(p % d != 0 for d in range(2, int(p**0.5)+1))]; Python's [%] with a
    positive divisor is [Z.modulo]. *)
Definition no_divisor (p : Z) : bool :=
  forallb (fun d => negb (p mod d =? 0)) (py_range 2 (int_sqrt p + 1)).

(** [[p for p in range(2, n) if all(...)]] *)
Definition sieve (n : Z) : list Z :=
  filter no_divisor (py_range 2 n).

(** ** Dimensional tagging: lines 38-46 *)

Definition dim_of (p : Z) : Z :=
  if p mod 13 =? 0 then 5
  else if p mod 5 =? 0 then 3
  else 2.

(** The [for p in primes] loop, with [dimensions] threaded as the state that
    [append] extends. *)
Definition tag_step (dimensions : list Z) (p : Z) : list Z :=
  dimensions ++ [dim_of p].

Definition tag_dimensions (primes : list Z) : list Z :=
  fold_left tag_step primes [].

(** ** numpy arrays: lines 49-56 *)

(** Element-wise pairing of two arrays of one shape. *)
Fixpoint zip_with {A B C : Type} (f : A -> B -> C)
    (a : list A) (b : list B) : list C :=
  match a, b with
  | u :: a', v :: b' => f u v :: zip_with f a' b'
  | _, _ => []
  end.

(** A binary ufunc on one-dimensional arrays: equal shapes pair up, a
    one-element operand is stretched, anything else is a broadcasting
    error. *)
Definition broadcast2 (f : R -> R -> R) (a b : list R) : py (list R) :=
  if Nat.eqb (length a) (length b) then Ok (zip_with f a b)
  else match a, b with
       | [u], _ => Ok (map (f u) b)
       | _, [v] => Ok (map (fun u => f u v) a)
       | _, _ => Raise ValueError
       end.

(** [np.array(l)] of a list of integers, read as reals wherever it meets a
    float operand. *)
Definition np_array (l : list Z) : list R := map IZR l.

(** [PHI = (1 + np.sqrt(5)) / 2] and [IAM_FREQ = 528.0] *)
Definition PHI : R := ((1 + sqrt 5) / 2)%R.
Definition IAM_FREQ : R := 528%R.

(** The tuple [generate_resonance_spiral] returns. *)
Record spiral : Type := Spiral {
  sp_x : list R;
  sp_y : list R;
  sp_z : list R;
  sp_tones : list R;
  sp_dimensions : list Z
}.

(** [generate_resonance_spiral(n)].  [**] binds tighter than [/], so both
    quotients divide by the array [PHI**np.array(dimensions)]; the float
    power is [Rpower]. *)
Definition generate_resonance_spiral (n : Z) : py spiral :=
  let primes := sieve n in
  let dimensions := tag_dimensions primes in
  let theta := map (fun v => v / 13)%R
                 (map (fun v => v * PI)%R (np_array primes)) in
  let r := map sqrt (np_array primes) in
  x <- broadcast2 Rmult r (map cos theta) ;;
  y <- broadcast2 Rmult r (map sin theta) ;;
  twist <- broadcast2 Rdiv theta (map (Rpower PHI) (np_array dimensions)) ;;
  z <- broadcast2 Rmult (np_array primes) (map sin twist) ;;
  tones <- broadcast2 Rdiv (map (Rmult IAM_FREQ) (np_array primes))
             (map (Rpower PHI) (np_array dimensions)) ;;
  Ok (Spiral x y z tones dimensions).

(** The default argument [n=2350]. *)
Definition default_n : Z := 2350.

(** ** Twin detection: lines 61-67 *)

(** One turn of [for i in range(len(primes)-1)]; the left operand of the
    subtraction is indexed first. *)
Definition twin_step (primes : list Z) (acc : py (list (Z * Z))) (i : Z)
    : py (list (Z * Z)) :=
  twins <- acc ;;
  hi <- getitem primes (i + 1) ;;
  lo <- getitem primes i ;;
  if hi - lo =? 2 then
    a <- getitem primes i ;;
    b <- getitem primes (i + 1) ;;
    Ok (twins ++ [(a, b)])
  else Ok twins.

Definition tag_entanglement (primes : list Z) : py (list (Z * Z)) :=
  fold_left (twin_step primes)
    (py_range 0 (Z.of_nat (length primes) - 1)) (Ok []).

(** ** The driver: lines 70-75 *)

(** The comprehension written out a second time in [__main__], with the
    literal bound. *)
Definition driver_primes : list Z :=
  filter no_divisor (py_range 2 2350).

(** What a run has produced once line 75 is done: the line printed with
    [datetime.now().isoformat()] (without its leading newline and glyph),
    the spiral and the twins. *)
Record run : Type := Run {
  console : list string;
  run_spiral : spiral;
  run_twins : list (Z * Z)
}.

(** The head of the driver; [now] is the clock reading the run observes. *)
Definition main (now : string) : py run :=
  let out := [String.append "PRIME RESONANCE ACTIVATED @ " now] in
  s <- generate_resonance_spiral default_n ;;
  twins <- tag_entanglement driver_primes ;;
  Ok (Run out s twins).

(** ** The specification's per-prime formulas

    These follow the wording of the specification, one prime at a time, with
    the golden-ratio power as an integer power; the theorems below compare
    them with what the vectorised code computes. *)

Definition phi_spec : R := ((1 + sqrt 5) / 2)%R.

Definition SpiralProjector_spec (p d : Z) : R * R * R :=
  let theta := (IZR p * PI / 13)%R in
  let r := sqrt (IZR p) in
  ((r * cos theta)%R,
   (r * sin theta)%R,
   (IZR p * sin (theta / phi_spec ^ Z.to_nat d))%R).

Definition ToneDeriver_spec (p d : Z) : R :=
  (528 * IZR p / phi_spec ^ Z.to_nat d)%R.

(** The adjacent pair at index [i], and whether its members differ by
    two. *)
Definition pair_at (primes : list Z) (i : nat) : Z * Z :=
  (nth i primes 0, nth (S i) primes 0).

Definition gap_two (primes : list Z) (i : nat) : bool :=
  nth (S i) primes 0 - nth i primes 0 =? 2.

(** Pairs [(primes[i], primes[i+1])] for [i] in [[0, len-2]] whose members
    differ by two, in index order. *)
Definition TwinPairDetector_spec (primes : list Z) : list (Z * Z) :=
  map (pair_at primes)
    (filter (gap_two primes) (seq 0 (length primes - 1)%nat)).

(** ** Entry-wise reading of the array pipeline

    What lines 49-56 put at the position of a prime [p]: the array
    expressions with every array replaced by its entry at that position. *)

Definition entry_theta (p : Z) : R := (IZR p * PI / 13)%R.
Definition entry_x (p : Z) : R := (sqrt (IZR p) * cos (entry_theta p))%R.
Definition entry_y (p : Z) : R := (sqrt (IZR p) * sin (entry_theta p))%R.
Definition entry_z (p : Z) : R :=
  (IZR p * sin (entry_theta p / Rpower PHI (IZR (dim_of p))))%R.
Definition entry_tone (p : Z) : R :=
  (IAM_FREQ * IZR p / Rpower PHI (IZR (dim_of p)))%R.

(** The point stored at index [i] of a spiral: the entries of [x], [y] and
    [z] there, when all three exist. *)
Definition point_at (s : spiral) (i : nat) : option (R * R * R) :=
  match nth_error (sp_x s) i, nth_error (sp_y s) i, nth_error (sp_z s) i with
  | Some x, Some y, Some z => Some (x, y, z)
  | _, _, _ => None
  end.

(** ** Facts about [py_range] *)

Section Range.

Lemma py_range_In (a b x : Z) : In x (py_range a b) <-> a <= x < b.
Proof.
  unfold py_range. rewrite in_map_iff. split.
  - intros (k & <- & Hk). apply in_seq in Hk. lia.
  - intros Hx. exists (Z.to_nat (x - a)). split; [lia|].
    apply in_seq. lia.
Qed.

Lemma py_range_empty (a b : Z) : b <= a -> py_range a b = [].
Proof.
  intros H. unfold py_range.
  replace (Z.to_nat (b - a)) with 0%nat by lia. reflexivity.
Qed.

Lemma seq_shift_sorted (a : Z) (len start : nat) :
  StronglySorted Z.lt (map (fun k => a + Z.of_nat k) (seq start len)).
Proof.
  revert start. induction len as [|len IH]; intros start; simpl.
  - constructor.
  - constructor; [apply IH|].
    apply Forall_forall. intros x Hx.
    apply in_map_iff in Hx. destruct Hx as (k & <- & Hk).
    apply in_seq in Hk. lia.
Qed.

Lemma py_range_sorted (a b : Z) : StronglySorted Z.lt (py_range a b).
Proof. apply seq_shift_sorted. Qed.

End Range.

(** ** Order facts shared by the list results *)

Section Increasing.

Lemma filter_sorted (f : Z -> bool) (l : list Z) :
  StronglySorted Z.lt l -> StronglySorted Z.lt (filter f l).
Proof.
  induction 1 as [|a l Hl IH Ha]; simpl; [constructor|].
  destruct (f a); [|exact IH].
  constructor; [exact IH|].
  rewrite Forall_forall in *. intros x Hx.
  apply filter_In in Hx. apply Ha. tauto.
Qed.

Lemma sorted_NoDup (l : list Z) : StronglySorted Z.lt l -> NoDup l.
Proof.
  induction 1 as [|a l Hl IH Ha]; constructor; [|exact IH].
  intros Hin. rewrite Forall_forall in Ha. specialize (Ha a Hin). lia.
Qed.

End Increasing.

(** ** Trial division decides primality *)

Section TrialDivision.

Lemma no_divisor_spec (p : Z) :
  no_divisor p = true <->
  forall d, 2 <= d <= Z.sqrt p -> p mod d <> 0.
Proof.
  unfold no_divisor, int_sqrt. rewrite forallb_forall. split.
  - intros H d Hd. specialize (H d).
    rewrite py_range_In in H. specialize (H ltac:(lia)).
    apply negb_true_iff, Z.eqb_neq in H. exact H.
  - intros H d Hd. apply py_range_In in Hd.
    apply negb_true_iff, Z.eqb_neq, H. lia.
Qed.

(** A proper factorisation has a factor at most the square root. *)
Lemma small_factor (p d q : Z) :
  0 < d -> 0 < q -> p = d * q -> d <= Z.sqrt p \/ q <= Z.sqrt p.
Proof.
  intros Hd Hq Hp.
  destruct (Z_le_gt_dec d (Z.sqrt p)) as [|Hd']; [now left|].
  destruct (Z_le_gt_dec q (Z.sqrt p)) as [|Hq']; [now right|].
  exfalso.
  assert (Hp0 : 0 <= p) by nia.
  pose proof (Z.sqrt_spec p Hp0) as [_ Hs].
  pose proof (Z.sqrt_nonneg p).
  assert (Z.succ (Z.sqrt p) * Z.succ (Z.sqrt p) <= d * q) by nia.
  lia.
Qed.

Lemma no_divisor_prime (p : Z) :
  2 <= p -> no_divisor p = true -> Z.prime p.
Proof.
  intros Hp Hnd. rewrite no_divisor_spec in Hnd.
  split; [lia|].
  intros d Hd [q Hq].
  assert (Hqpos : 0 < q) by nia.
  assert (Hq1 : 1 < q) by nia.
  destruct (small_factor p d q ltac:(lia) Hqpos ltac:(lia)) as [Hs|Hs].
  - apply (Hnd d); [lia|].
    apply Z.mod_divide; [lia|]. exists q. exact Hq.
  - apply (Hnd q); [lia|].
    apply Z.mod_divide; [lia|]. exists d. lia.
Qed.

Lemma prime_no_divisor (p : Z) : Z.prime p -> no_divisor p = true.
Proof.
  intros [Hgt Hp]. apply no_divisor_spec. intros d Hd Hmod.
  assert (Hp0 : 0 <= p) by lia.
  pose proof (Z.sqrt_spec p Hp0) as [Hs _].
  apply (Hp d).
  - split; [lia|]. nia.
  - apply Z.mod_divide; [lia|exact Hmod].
Qed.

Lemma sieve_In (n p : Z) : In p (sieve n) <-> 2 <= p < n /\ Z.prime p.
Proof.
  unfold sieve. rewrite filter_In, py_range_In. split.
  - intros [Hr Hnd]. split; [exact Hr|].
    apply no_divisor_prime; [lia|exact Hnd].
  - intros [Hr Hp]. split; [exact Hr|]. now apply prime_no_divisor.
Qed.

Lemma sieve_sorted (n : Z) : StronglySorted Z.lt (sieve n).
Proof. apply filter_sorted, py_range_sorted. Qed.

Lemma sieve_small (n : Z) : n <= 2 -> sieve n = [].
Proof. intros H. unfold sieve. now rewrite py_range_empty. Qed.

End TrialDivision.

(** ** The tagging loop *)

Section Tagging.

Lemma tag_loop (primes acc : list Z) :
  fold_left tag_step primes acc = acc ++ map dim_of primes.
Proof.
  revert acc. induction primes as [|p primes IH]; intros acc; simpl.
  - now rewrite app_nil_r.
  - rewrite IH. unfold tag_step. now rewrite <- app_assoc.
Qed.

Lemma tag_dimensions_map (primes : list Z) :
  tag_dimensions primes = map dim_of primes.
Proof. unfold tag_dimensions. now rewrite tag_loop. Qed.

Lemma dim_of_cases (p : Z) : dim_of p = 2 \/ dim_of p = 3 \/ dim_of p = 5.
Proof.
  unfold dim_of.
  destruct (p mod 13 =? 0); [tauto|].
  destruct (p mod 5 =? 0); tauto.
Qed.

Lemma dim_of_nonneg (p : Z) : 0 <= dim_of p.
Proof. destruct (dim_of_cases p) as [H|[H|H]]; rewrite H; lia. Qed.

End Tagging.

(** ** The array pipeline, entry by entry *)

Section Arrays.

Lemma broadcast2_same_shape (f : R -> R -> R) (a b : list R) :
  length a = length b -> broadcast2 f a b = Ok (zip_with f a b).
Proof.
  intros H. unfold broadcast2.
  now rewrite (proj2 (Nat.eqb_eq _ _) H).
Qed.

Lemma zip_with_map {A B C D : Type} (f : B -> C -> D)
    (g : A -> B) (h : A -> C) (l : list A) :
  zip_with f (map g l) (map h l) = map (fun a => f (g a) (h a)) l.
Proof. induction l as [|a l IH]; simpl; [reflexivity|now rewrite IH]. Qed.

(** Two arrays obtained by mapping over one list meet in one shape. *)
Lemma broadcast2_map {A : Type} (f : R -> R -> R)
    (g h : A -> R) (l : list A) :
  broadcast2 f (map g l) (map h l) = Ok (map (fun a => f (g a) (h a)) l).
Proof.
  rewrite broadcast2_same_shape by now rewrite !length_map.
  now rewrite zip_with_map.
Qed.

Lemma generate_resonance_spiral_entries (n : Z) :
  generate_resonance_spiral n =
  Ok (Spiral (map entry_x (sieve n)) (map entry_y (sieve n))
        (map entry_z (sieve n)) (map entry_tone (sieve n))
        (map dim_of (sieve n))).
Proof.
  unfold generate_resonance_spiral, np_array.
  rewrite tag_dimensions_map, !map_map.
  rewrite !broadcast2_map. cbn [bind].
  rewrite map_map.
  rewrite !broadcast2_map. cbn [bind].
  reflexivity.
Qed.

End Arrays.

(** ** The twin scan *)

Section TwinScan.

Variable primes : list Z.

Lemma getitem_nth (i : nat) :
  (i < length primes)%nat ->
  getitem primes (Z.of_nat i) = Ok (nth i primes 0).
Proof.
  intros Hi. unfold getitem.
  destruct (Z.ltb_spec (Z.of_nat i) 0) as [Hneg|_]; [lia|]. cbv zeta.
  destruct (Z.ltb_spec (Z.of_nat i) 0) as [Hneg|_]; [lia|].
  rewrite Nat2Z.id. now rewrite (nth_error_nth' primes 0 Hi).
Qed.

Lemma py_range_snoc (k : nat) :
  py_range 0 (Z.of_nat (S k)) = py_range 0 (Z.of_nat k) ++ [Z.of_nat k].
Proof.
  unfold py_range. rewrite !Z.sub_0_r, !Nat2Z.id.
  rewrite seq_S, map_app. reflexivity.
Qed.

Lemma twin_step_at (k : nat) (twins : list (Z * Z)) :
  (S k < length primes)%nat ->
  twin_step primes (Ok twins) (Z.of_nat k) =
  Ok (twins ++ map (pair_at primes) (filter (gap_two primes) [k])).
Proof.
  intros Hk. unfold twin_step. cbn [bind].
  replace (Z.of_nat k + 1) with (Z.of_nat (S k)) by lia.
  rewrite !getitem_nth by lia. cbn [bind].
  cbn [filter]. fold (gap_two primes k).
  destruct (gap_two primes k); cbn [bind map].
  - reflexivity.
  - now rewrite app_nil_r.
Qed.

Lemma twin_scan_prefix (k : nat) :
  (k < length primes)%nat ->
  fold_left (twin_step primes) (py_range 0 (Z.of_nat k)) (Ok []) =
  Ok (map (pair_at primes) (filter (gap_two primes) (seq 0 k))).
Proof.
  induction k as [|k IH]; intros Hk.
  - reflexivity.
  - rewrite py_range_snoc, fold_left_app, IH by lia.
    cbn [fold_left]. rewrite twin_step_at by lia.
    now rewrite seq_S, filter_app, map_app.
Qed.

Lemma tag_entanglement_scan :
  tag_entanglement primes = Ok (TwinPairDetector_spec primes).
Proof.
  unfold tag_entanglement, TwinPairDetector_spec.
  destruct (length primes) as [|m] eqn:Hlen.
  - reflexivity.
  - replace (Z.of_nat (S m) - 1) with (Z.of_nat m) by lia.
    replace (S m - 1)%nat with m by lia.
    apply twin_scan_prefix. lia.
Qed.

End TwinScan.

(** ** The golden ratio and the real-valued entries *)

Section Golden.

Open Scope R_scope.

Lemma PHI_pos : 0 < PHI.
Proof.
  unfold PHI. pose proof (sqrt_pos 5). lra.
Qed.

Lemma PHI_power_pos (d : R) : 0 < Rpower PHI d.
Proof. unfold Rpower. apply exp_pos. Qed.

(** The float power at a non-negative integer exponent is the integer
    power of the specification. *)
Lemma PHI_power_int (d : Z) :
  (0 <= d)%Z -> Rpower PHI (IZR d) = phi_spec ^ Z.to_nat d.
Proof.
  intros Hd. change phi_spec with PHI.
  rewrite <- (Rpower_pow (Z.to_nat d) PHI PHI_pos).
  now rewrite INR_IZR_INZ, Z2Nat.id.
Qed.

Lemma phi_spec_pow_pos (k : nat) : 0 < phi_spec ^ k.
Proof. apply pow_lt. exact PHI_pos. Qed.

Lemma entry_z_spec (p : Z) :
  entry_z p =
  IZR p * sin (IZR p * PI / 13 / phi_spec ^ Z.to_nat (dim_of p)).
Proof.
  unfold entry_z, entry_theta.
  now rewrite PHI_power_int by apply dim_of_nonneg.
Qed.

Lemma entry_tone_spec (p : Z) :
  entry_tone p = ToneDeriver_spec p (dim_of p).
Proof.
  unfold entry_tone, ToneDeriver_spec, IAM_FREQ.
  now rewrite PHI_power_int by apply dim_of_nonneg.
Qed.

Lemma entry_point_spec (p : Z) :
  (entry_x p, entry_y p, entry_z p) = SpiralProjector_spec p (dim_of p).
Proof.
  unfold SpiralProjector_spec. rewrite entry_z_spec. reflexivity.
Qed.

Lemma ToneDeriver_spec_increasing (p1 p2 d : Z) :
  (p1 < p2)%Z -> ToneDeriver_spec p1 d < ToneDeriver_spec p2 d.
Proof.
  intros Hlt. unfold ToneDeriver_spec.
  apply Rmult_lt_compat_r.
  - apply Rinv_0_lt_compat, phi_spec_pow_pos.
  - apply IZR_lt in Hlt. lra.
Qed.

Lemma entry_radius (p : Z) :
  (0 <= p)%Z -> entry_x p * entry_x p + entry_y p * entry_y p = IZR p.
Proof.
  intros Hp. unfold entry_x, entry_y.
  set (t := entry_theta p).
  assert (H0 : 0 <= IZR p) by now apply IZR_le.
  pose proof (sqrt_sqrt (IZR p) H0) as Hs.
  pose proof (sin2_cos2 t) as Ht. unfold Rsqr in Ht.
  replace (sqrt (IZR p) * cos t * (sqrt (IZR p) * cos t) +
           sqrt (IZR p) * sin t * (sqrt (IZR p) * sin t))
    with (sqrt (IZR p) * sqrt (IZR p) * (sin t * sin t + cos t * cos t))
    by ring.
  rewrite Hs, Ht. ring.
Qed.

End Golden.

(** ** Positions in the sieve *)

Section Positions.

Lemma sieve_nth_prime (n : Z) (i : nat) (p : Z) :
  nth_error (sieve n) i = Some p -> 2 <= p < n /\ Z.prime p.
Proof. intros H. apply sieve_In. eapply nth_error_In, H. Qed.

Lemma sieve_prime_nth (n p : Z) :
  2 <= p < n -> Z.prime p -> exists i, nth_error (sieve n) i = Some p.
Proof. intros Hr Hp. apply In_nth_error, sieve_In. tauto. Qed.

Lemma map_at {A B : Type} (f : A -> B) (l : list A) (i : nat) (a : A) :
  nth_error l i = Some a -> nth_error (map f l) i = Some (f a).
Proof. intros H. now rewrite nth_error_map, H. Qed.

Lemma no_composite (n a b : Z) : 1 < a -> 1 < b -> ~ In (a * b) (sieve n).
Proof.
  intros Ha Hb Hin. apply sieve_In in Hin. destruct Hin as [_ [_ Hp]].
  apply (Hp a); [nia|]. exists b. lia.
Qed.

End Positions.

(** ** The sieve *)

(** C1.  For every integer bound [n] the sieve is strictly increasing and
    duplicate-free, its members are exactly the primes [p] with
    [2 <= p < n], so it holds no product of two factors above one; at bound
    ten it is [2, 3, 5, 7], and at every bound [n <= 2] it is empty. *)
Theorem sieve_primes_below (n : Z) :
  StronglySorted Z.lt (sieve n) /\
  NoDup (sieve n) /\
  (forall p, In p (sieve n) <-> 2 <= p < n /\ Z.prime p) /\
  (forall a b, 1 < a -> 1 < b -> ~ In (a * b) (sieve n)) /\
  sieve 10 = [2; 3; 5; 7] /\
  (n <= 2 -> sieve n = []).
Proof.
  split; [apply sieve_sorted|].
  split; [apply sorted_NoDup, sieve_sorted|].
  split; [intros p; apply sieve_In|].
  split; [intros a b; apply no_composite|].
  split; [reflexivity|apply sieve_small].
Qed.

Lemma sieve_primes_below_witness :
  sieve 2 = [] /\ Z.prime 7.
Proof.
  split.
  - apply (sieve_primes_below 2). lia.
  - destruct (sieve_primes_below 10) as (_ & _ & H & _).
    apply (H 7). change (In 7 [2; 3; 5; 7]). simpl. tauto.
Defined.

(** ** The classifier *)

(** C2.  The tag of every integer [p] is decided by the ordered rule:
    five exactly when thirteen divides [p], three exactly when thirteen does
    not and five does, two otherwise; it is always one of two, three and
    five; thirteen, five, seven and two are tagged five, three, two and two;
    and the tagging loop stores at each position the tag of the prime at that
    position. *)
Theorem dim_of_rule (p : Z) :
  (dim_of p = 5 <-> p mod 13 = 0) /\
  (dim_of p = 3 <-> p mod 13 <> 0 /\ p mod 5 = 0) /\
  (dim_of p = 2 <-> p mod 13 <> 0 /\ p mod 5 <> 0) /\
  (dim_of p = 2 \/ dim_of p = 3 \/ dim_of p = 5) /\
  (dim_of 13 = 5 /\ dim_of 5 = 3 /\ dim_of 7 = 2 /\ dim_of 2 = 2) /\
  (forall primes i, nth_error primes i = Some p ->
     nth_error (tag_dimensions primes) i = Some (dim_of p)).
Proof.
  assert (Hrule :
    (dim_of p = 5 <-> p mod 13 = 0) /\
    (dim_of p = 3 <-> p mod 13 <> 0 /\ p mod 5 = 0) /\
    (dim_of p = 2 <-> p mod 13 <> 0 /\ p mod 5 <> 0)).
  { unfold dim_of.
    destruct (Z.eqb_spec (p mod 13) 0) as [H13|H13];
      [|destruct (Z.eqb_spec (p mod 5) 0) as [H5|H5]];
      repeat split; intros; try lia; tauto. }
  destruct Hrule as (H5 & H3 & H2).
  split; [exact H5|]. split; [exact H3|]. split; [exact H2|].
  split; [apply dim_of_cases|].
  split; [repeat split|].
  intros primes i Hi. rewrite tag_dimensions_map. now apply map_at.
Qed.

Lemma dim_of_rule_witness :
  dim_of 65 = 5 /\ nth_error (tag_dimensions [2; 3; 5]) 2 = Some 3.
Proof.
  split.
  - destruct (dim_of_rule 65) as ((_ & H) & _). apply H. reflexivity.
  - destruct (dim_of_rule 5) as (_ & _ & _ & _ & _ & H).
    apply (H [2; 3; 5] 2%nat). reflexivity.
Defined.

(** ** The projection *)

(** C3.  For every bound the spiral is returned without an exception; every
    prime below the bound has a position in the sieve; and at the position
    of a prime [p] the entries of [x], [y] and [z] are the coordinates the
    specification's formula gives for [p] and its tag, the tag being the
    entry of [dimensions] there.  The square root is taken of a non-negative
    number and the divisor [phi^d] is not zero. *)
Theorem spiral_projection_formula (n : Z) :
  exists s,
    generate_resonance_spiral n = Ok s /\
    (forall p, 2 <= p < n -> Z.prime p ->
       exists i, nth_error (sieve n) i = Some p) /\
    (forall i p, nth_error (sieve n) i = Some p ->
       Z.prime p /\
       nth_error (sp_dimensions s) i = Some (dim_of p) /\
       (exists x y z,
          nth_error (sp_x s) i = Some x /\
          nth_error (sp_y s) i = Some y /\
          nth_error (sp_z s) i = Some z /\
          (x, y, z) = SpiralProjector_spec p (dim_of p)) /\
       (0 <= IZR p)%R /\
       (phi_spec ^ Z.to_nat (dim_of p) <> 0)%R).
Proof.
  eexists. split; [apply generate_resonance_spiral_entries|].
  split; [intros p; apply sieve_prime_nth|].
  intros i p Hi. cbn [sp_x sp_y sp_z sp_dimensions].
  pose proof (sieve_nth_prime n i p Hi) as [Hr Hp].
  split; [exact Hp|].
  split; [now apply map_at|].
  split.
  - exists (entry_x p), (entry_y p), (entry_z p).
    repeat (split; [now apply map_at|]).
    apply entry_point_spec.
  - split.
    + apply IZR_le. lia.
    + apply Rgt_not_eq, phi_spec_pow_pos.
Qed.

Lemma spiral_projection_formula_witness :
  exists s,
    generate_resonance_spiral 10 = Ok s /\
    nth_error (sp_dimensions s) 2 = Some 3 /\
    exists x y z,
      nth_error (sp_x s) 2 = Some x /\
      nth_error (sp_y s) 2 = Some y /\
      nth_error (sp_z s) 2 = Some z /\
      (x, y, z) = SpiralProjector_spec 5 3.
Proof.
  destruct (spiral_projection_formula 10) as (s & Hs & _ & H).
  exists s. split; [exact Hs|].
  destruct (H 2%nat 5 eq_refl) as (_ & Hd & Hxyz & _).
  split; [exact Hd|exact Hxyz].
Defined.

(** ** The tones *)

(** C4.  At the position of a prime [p] the entry of [tones] is
    [528 * p / phi^d] for the tag [d] of [p]; that formula is strictly
    increasing in [p] for a fixed [d]; and of two primes of the sieve with
    one tag, the smaller has the smaller tone. *)
Theorem tone_formula_increasing (n : Z) :
  exists s,
    generate_resonance_spiral n = Ok s /\
    (forall i p, nth_error (sieve n) i = Some p ->
       nth_error (sp_tones s) i = Some (ToneDeriver_spec p (dim_of p))) /\
    (forall p1 p2 d, p1 < p2 ->
       (ToneDeriver_spec p1 d < ToneDeriver_spec p2 d)%R) /\
    (forall i j p1 p2,
       nth_error (sieve n) i = Some p1 ->
       nth_error (sieve n) j = Some p2 ->
       dim_of p1 = dim_of p2 -> p1 < p2 ->
       exists t1 t2,
         nth_error (sp_tones s) i = Some t1 /\
         nth_error (sp_tones s) j = Some t2 /\
         (t1 < t2)%R).
Proof.
  eexists. split; [apply generate_resonance_spiral_entries|].
  cbn [sp_tones].
  assert (Hat : forall i p, nth_error (sieve n) i = Some p ->
    nth_error (map entry_tone (sieve n)) i =
    Some (ToneDeriver_spec p (dim_of p))).
  { intros i p Hi. rewrite <- entry_tone_spec. now apply map_at. }
  split; [exact Hat|].
  split; [exact ToneDeriver_spec_increasing|].
  intros i j p1 p2 Hi Hj Hd Hlt.
  exists (ToneDeriver_spec p1 (dim_of p1)), (ToneDeriver_spec p2 (dim_of p2)).
  split; [now apply Hat|]. split; [now apply Hat|].
  rewrite Hd. now apply ToneDeriver_spec_increasing.
Qed.

Lemma tone_formula_increasing_witness :
  exists s t1 t2,
    generate_resonance_spiral 10 = Ok s /\
    nth_error (sp_tones s) 0 = Some t1 /\
    nth_error (sp_tones s) 3 = Some t2 /\
    (t1 < t2)%R.
Proof.
  destruct (tone_formula_increasing 10) as (s & Hs & _ & _ & H).
  destruct (H 0%nat 3%nat 2 7 eq_refl eq_refl eq_refl ltac:(lia))
    as (t1 & t2 & H1 & H2 & Hlt).
  exists s, t1, t2. tauto.
Defined.

(** ** Twin detection *)

(** C5.  On every list, [tag_entanglement] returns, without an exception,
    the pairs [(primes[i], primes[i+1])] for [i] from [0] to [len-2] whose
    members differ by two, in index order; on [3, 5, 7, 11, 13] these are
    [(3,5), (5,7), (11,13)], and on the empty list there are none. *)
Theorem tag_entanglement_adjacent_pairs (primes : list Z) :
  tag_entanglement primes = Ok (TwinPairDetector_spec primes) /\
  tag_entanglement [3; 5; 7; 11; 13] = Ok [(3, 5); (5, 7); (11, 13)] /\
  tag_entanglement [] = Ok [].
Proof.
  split; [apply tag_entanglement_scan|]. split; reflexivity.
Qed.

(** ** The driver *)

(** C6.  The sequence the driver regenerates with the literal bound is,
    position by position, the sequence [generate_resonance_spiral] builds at
    its default bound, so the twins computed from it are those of the
    sequence behind the per-prime results, and every run of the driver
    returns them next to results aligned with that one sequence. *)
Theorem driver_primes_same :
  driver_primes = sieve default_n /\
  (forall i, nth_error driver_primes i = nth_error (sieve default_n) i) /\
  tag_entanglement driver_primes = tag_entanglement (sieve default_n) /\
  (forall now, exists r,
     main now = Ok r /\
     run_twins r = TwinPairDetector_spec (sieve default_n) /\
     sp_dimensions (run_spiral r) = map dim_of driver_primes /\
     length (sp_x (run_spiral r)) = length driver_primes).
Proof.
  assert (Hsame : driver_primes = sieve default_n) by reflexivity.
  split; [exact Hsame|].
  split; [now rewrite Hsame|].
  split; [now rewrite Hsame|].
  intros now. unfold main.
  rewrite generate_resonance_spiral_entries, Hsame. cbn [bind].
  rewrite tag_entanglement_scan. cbn [bind].
  eexists. split; [reflexivity|].
  cbn [run_twins run_spiral sp_dimensions sp_x].
  split; [reflexivity|]. split; [reflexivity|apply length_map].
Qed.

(** ** Bounds below two *)

(** C7, as stated, fails: at bound zero the spiral is returned, empty, and
    nothing is raised. *)
Lemma small_bound_not_rejected :
  generate_resonance_spiral 0 = Ok (Spiral [] [] [] [] []) /\
  ~ (forall n, n < 2 -> exists e, generate_resonance_spiral n = Raise e).
Proof.
  assert (H0 : generate_resonance_spiral 0 = Ok (Spiral [] [] [] [] []))
    by reflexivity.
  split; [exact H0|].
  intros H. destruct (H 0 ltac:(lia)) as [e He].
  rewrite H0 in He. discriminate He.
Qed.

(** C7, amended.  No integer bound is rejected: for every [n] the spiral and
    the twins of the sieve are returned without an exception, and for
    [n <= 2] the five sequences and the twin list are empty. *)
Theorem small_bound_empty (n : Z) :
  exists s twins,
    generate_resonance_spiral n = Ok s /\
    tag_entanglement (sieve n) = Ok twins /\
    (n <= 2 -> s = Spiral [] [] [] [] [] /\ twins = []).
Proof.
  eexists. eexists.
  split; [apply generate_resonance_spiral_entries|].
  split; [apply tag_entanglement_scan|].
  intros Hn. rewrite (sieve_small n Hn). split; reflexivity.
Qed.

Lemma small_bound_empty_witness :
  exists s twins,
    generate_resonance_spiral (-3) = Ok s /\
    tag_entanglement (sieve (-3)) = Ok twins /\
    s = Spiral [] [] [] [] [] /\ twins = [].
Proof.
  destruct (small_bound_empty (-3)) as (s & twins & Hs & Ht & H).
  exists s, twins. split; [exact Hs|]. split; [exact Ht|].
  apply H. lia.
Defined.

(** ** Alignment of the results *)

(** C9.  There are functions of a prime and its tag alone such that, for
    every bound, the five results have the length of the sieve and hold at
    each position the value of these functions at the prime of that position
    and its tag. *)
Theorem spiral_index_aligned :
  exists (fx fy fz ft : Z -> Z -> R),
  forall n, exists s,
    generate_resonance_spiral n = Ok s /\
    length (sp_x s) = length (sieve n) /\
    length (sp_y s) = length (sieve n) /\
    length (sp_z s) = length (sieve n) /\
    length (sp_tones s) = length (sieve n) /\
    length (sp_dimensions s) = length (sieve n) /\
    (forall i p, nth_error (sieve n) i = Some p ->
       nth_error (sp_dimensions s) i = Some (dim_of p) /\
       nth_error (sp_x s) i = Some (fx p (dim_of p)) /\
       nth_error (sp_y s) i = Some (fy p (dim_of p)) /\
       nth_error (sp_z s) i = Some (fz p (dim_of p)) /\
       nth_error (sp_tones s) i = Some (ft p (dim_of p))).
Proof.
  exists (fun p d => fst (fst (SpiralProjector_spec p d))),
         (fun p d => snd (fst (SpiralProjector_spec p d))),
         (fun p d => snd (SpiralProjector_spec p d)),
         ToneDeriver_spec.
  intros n. eexists. split; [apply generate_resonance_spiral_entries|].
  cbn [sp_x sp_y sp_z sp_tones sp_dimensions].
  rewrite !length_map. repeat (split; [reflexivity|]).
  intros i p Hi.
  rewrite <- entry_point_spec, <- entry_tone_spec. cbn [fst snd].
  repeat split; now apply map_at.
Qed.

Lemma spiral_index_aligned_witness :
  exists (fx : Z -> Z -> R) s,
    generate_resonance_spiral 10 = Ok s /\
    length (sp_x s) = 4%nat /\
    nth_error (sp_x s) 1 = Some (fx 3 2).
Proof.
  destruct spiral_index_aligned as (fx & fy & fz & ft & H).
  destruct (H 10) as (s & Hs & Hlx & _ & _ & _ & _ & Hat).
  exists fx, s. split; [exact Hs|]. split; [exact Hlx|].
  apply (Hat 1%nat 3 eq_refl).
Defined.

(** ** Distance from the axis *)

(** C10.  At the position of a prime [p] the entries [x] and [y] satisfy
    [x^2 + y^2 = p] in the real numbers, and they are the horizontal
    coordinates of the specification's formula whatever tag it is given. *)
Theorem horizontal_radius (n : Z) (i : nat) (p : Z) :
  nth_error (sieve n) i = Some p ->
  exists s x y,
    generate_resonance_spiral n = Ok s /\
    nth_error (sp_x s) i = Some x /\
    nth_error (sp_y s) i = Some y /\
    (x * x + y * y = IZR p)%R /\
    (forall d, fst (SpiralProjector_spec p d) = (x, y)).
Proof.
  intros Hi.
  pose proof (sieve_nth_prime n i p Hi) as [Hr _].
  eexists. exists (entry_x p), (entry_y p).
  split; [apply generate_resonance_spiral_entries|].
  cbn [sp_x sp_y].
  split; [now apply map_at|]. split; [now apply map_at|].
  split; [apply entry_radius; lia|].
  intros d. reflexivity.
Qed.

Lemma horizontal_radius_witness :
  exists s x y,
    generate_resonance_spiral 20 = Ok s /\
    nth_error (sp_x s) 5 = Some x /\
    nth_error (sp_y s) 5 = Some y /\
    (x * x + y * y = 13)%R.
Proof.
  destruct (horizontal_radius 20 5 13 eq_refl)
    as (s & x & y & Hs & Hx & Hy & Hr & _).
  exists s, x, y. tauto.
Defined.

(** * Further properties of the embedded code *)

(** ** Positions in increasing lists *)

Section SortedPositions.

Lemma sorted_nth_lt (l : list Z) :
  StronglySorted Z.lt l ->
  forall i j a b, (i < j)%nat ->
    nth_error l i = Some a -> nth_error l j = Some b -> a < b.
Proof.
  induction 1 as [|x l Hl IH Hx]; intros i j a b Hij Hi Hj.
  - destruct i; discriminate.
  - destruct j as [|j]; [lia|]. destruct i as [|i]; simpl in Hi, Hj.
    + injection Hi as <-. rewrite Forall_forall in Hx.
      apply Hx. eapply nth_error_In, Hj.
    + apply (IH i j); [lia|assumption|assumption].
Qed.

Lemma sorted_nth_lt_inv (l : list Z) (i j : nat) (a b : Z) :
  StronglySorted Z.lt l ->
  nth_error l i = Some a -> nth_error l j = Some b -> a < b -> (i < j)%nat.
Proof.
  intros Hs Hi Hj Hab.
  destruct (lt_eq_lt_dec i j) as [[Hlt|Heq]|Hgt]; [exact Hlt| |].
  - subst j. rewrite Hi in Hj. injection Hj as ->. lia.
  - pose proof (sorted_nth_lt l Hs j i b a Hgt Hj Hi). lia.
Qed.

Lemma filter_sorted_gen {A : Type} (R : A -> A -> Prop) (f : A -> bool)
    (l : list A) :
  StronglySorted R l -> StronglySorted R (filter f l).
Proof.
  induction 1 as [|a l Hl IH Ha]; simpl; [constructor|].
  destruct (f a); [|exact IH].
  constructor; [exact IH|].
  rewrite Forall_forall in *. intros x Hx.
  apply filter_In in Hx. apply Ha. tauto.
Qed.

Lemma seq_sorted (start len : nat) : StronglySorted lt (seq start len).
Proof.
  revert start. induction len as [|len IH]; intros start; simpl.
  - constructor.
  - constructor; [apply IH|].
    apply Forall_forall. intros x Hx. apply in_seq in Hx. lia.
Qed.

Lemma map_sorted {A B : Type} (R : A -> A -> Prop) (R' : B -> B -> Prop)
    (f : A -> B) (l : list A) :
  StronglySorted R l ->
  (forall x y, In x l -> In y l -> R x y -> R' (f x) (f y)) ->
  StronglySorted R' (map f l).
Proof.
  induction 1 as [|a l Hl IH Ha]; intros Hf; simpl; [constructor|].
  constructor.
  - apply IH. intros x y Hx Hy. apply Hf; now right.
  - rewrite Forall_forall in *. intros y Hy.
    apply in_map_iff in Hy. destruct Hy as (x & <- & Hx).
    apply Hf; [now left|now right|now apply Ha].
Qed.

End SortedPositions.

(** ** Where the twins sit *)

Section TwinPositions.

Lemma twin_spec_In (l : list Z) (a b : Z) :
  In (a, b) (TwinPairDetector_spec l) <->
  exists i, nth_error l i = Some a /\ nth_error l (S i) = Some b /\ b - a = 2.
Proof.
  unfold TwinPairDetector_spec. rewrite in_map_iff. split.
  - intros (i & Hp & Hin). apply filter_In in Hin. destruct Hin as [Hs Hg].
    apply in_seq in Hs. unfold pair_at in Hp. injection Hp as Ha Hb.
    unfold gap_two in Hg. apply Z.eqb_eq in Hg.
    exists i. subst a b.
    split; [apply nth_error_nth'; lia|].
    split; [apply nth_error_nth'; lia|exact Hg].
  - intros (i & Ha & Hb & Hd). exists i.
    assert (Hlen : (S i < length l)%nat)
      by (apply nth_error_Some; congruence).
    pose proof (nth_error_nth l i 0 Ha) as Ha'.
    pose proof (nth_error_nth l (S i) 0 Hb) as Hb'.
    split; [unfold pair_at; congruence|].
    apply filter_In. split; [apply in_seq; lia|].
    unfold gap_two. rewrite Ha', Hb'. now apply Z.eqb_eq.
Qed.

Lemma twin_spec_length (l : list Z) :
  (length (TwinPairDetector_spec l) <= length l - 1)%nat.
Proof.
  unfold TwinPairDetector_spec. rewrite length_map.
  etransitivity; [apply filter_length_le|]. now rewrite length_seq.
Qed.

Lemma between_twins_not_prime (a c : Z) :
  Z.prime a -> Z.prime (a + 2) -> a < c < a + 2 -> ~ Z.prime c.
Proof.
  intros [Ha1 Ha] [_ Hb] Hc [_ Hcp].
  assert (c = a + 1) by lia. subst c.
  pose proof (Z.div_mod a 2 ltac:(lia)) as Hdm.
  pose proof (Z.mod_pos_bound a 2 ltac:(lia)) as Hm.
  destruct (Z.eq_dec a 2) as [->|Hne].
  - apply (Hb 2); [lia|]. exists 2. lia.
  - destruct (Z.eq_dec (a mod 2) 0) as [H0|H1].
    + apply (Ha 2); [lia|]. exists (a / 2). lia.
    + apply (Hcp 2); [lia|]. exists (a / 2 + 1). lia.
Qed.

Lemma sieve_twin_adjacent (n a : Z) :
  Z.prime a -> Z.prime (a + 2) -> a + 2 < n ->
  exists i, nth_error (sieve n) i = Some a /\
            nth_error (sieve n) (S i) = Some (a + 2).
Proof.
  intros Ha Hb Hn.
  pose proof (proj1 Ha) as Ha1.
  destruct (sieve_prime_nth n a ltac:(lia) Ha) as [i Hi].
  destruct (sieve_prime_nth n (a + 2) ltac:(lia) Hb) as [j Hj].
  pose proof (sieve_sorted n) as Hs.
  pose proof (sorted_nth_lt_inv _ _ _ _ _ Hs Hi Hj ltac:(lia)) as Hij.
  exists i. split; [exact Hi|].
  destruct (Nat.eq_dec j (S i)) as [->|Hne]; [exact Hj|].
  exfalso.
  assert (Hjlen : (j < length (sieve n))%nat)
    by (apply nth_error_Some; congruence).
  destruct (nth_error (sieve n) (S i)) as [c|] eqn:Hc.
  - pose proof (sorted_nth_lt _ Hs i (S i) a c ltac:(lia) Hi Hc).
    pose proof (sorted_nth_lt _ Hs (S i) j c (a + 2) ltac:(lia) Hc Hj).
    apply (between_twins_not_prime a c Ha Hb ltac:(lia)).
    apply (sieve_nth_prime n (S i) c Hc).
  - apply nth_error_None in Hc. lia.
Qed.

Lemma sieve_twins_In (n a b : Z) :
  In (a, b) (TwinPairDetector_spec (sieve n)) <->
  Z.prime a /\ Z.prime b /\ b = a + 2 /\ b < n.
Proof.
  rewrite twin_spec_In. split.
  - intros (i & Ha & Hb & Hd).
    apply sieve_nth_prime in Ha. apply sieve_nth_prime in Hb.
    destruct Ha as [_ Ha], Hb as [Hbn Hb].
    split; [exact Ha|]. split; [exact Hb|]. lia.
  - intros (Ha & Hb & -> & Hn).
    destruct (sieve_twin_adjacent n a Ha Hb Hn) as (i & Hi & Hj).
    exists i. repeat split; [exact Hi|exact Hj|lia].
Qed.

End TwinPositions.

(** X1.  The twins found in the sieve of any bound [n] are exactly the pairs
    [(a, a+2)] of primes with [a + 2 < n]: nothing else is returned and no
    such pair is missed. *)
Theorem twins_of_sieve (n : Z) :
  exists twins,
    tag_entanglement (sieve n) = Ok twins /\
    forall a b, In (a, b) twins <->
      Z.prime a /\ Z.prime b /\ b = a + 2 /\ b < n.
Proof.
  eexists. split; [apply tag_entanglement_scan|].
  intros a b. apply sieve_twins_In.
Qed.

Lemma twins_of_sieve_witness :
  exists twins,
    tag_entanglement (sieve 20) = Ok twins /\ In (11, 13) twins.
Proof.
  destruct (twins_of_sieve 20) as (twins & Ht & H).
  exists twins. split; [exact Ht|].
  apply H.
  split; [apply no_divisor_prime; [lia|reflexivity]|].
  split; [apply no_divisor_prime; [lia|reflexivity]|lia].
Defined.

(** X2.  On any list, sorted or not, [tag_entanglement] returns at most
    [len - 1] pairs, and a pair is returned exactly when its members stand
    at two consecutive positions of the list and differ by two. *)
Theorem tag_entanglement_consecutive (primes : list Z) :
  exists twins,
    tag_entanglement primes = Ok twins /\
    (length twins <= length primes - 1)%nat /\
    forall a b, In (a, b) twins <->
      exists i, nth_error primes i = Some a /\
                nth_error primes (S i) = Some b /\ b - a = 2.
Proof.
  eexists. split; [apply tag_entanglement_scan|].
  split; [apply twin_spec_length|].
  intros a b. apply twin_spec_In.
Qed.

Lemma tag_entanglement_consecutive_witness :
  exists twins,
    tag_entanglement [9; 4; 6; 1] = Ok twins /\
    (length twins <= 3)%nat /\ In (4, 6) twins.
Proof.
  destruct (tag_entanglement_consecutive [9; 4; 6; 1]) as (twins & Ht & Hl & H).
  exists twins. split; [exact Ht|]. split; [exact Hl|].
  apply H. exists 1%nat. repeat split.
Defined.

(** X3.  On a strictly increasing list the twins come out strictly
    increasing in both members, so no pair is returned twice. *)
Theorem tag_entanglement_increasing (primes : list Z) :
  StronglySorted Z.lt primes ->
  exists twins,
    tag_entanglement primes = Ok twins /\
    StronglySorted Z.lt (map fst twins) /\
    StronglySorted Z.lt (map snd twins) /\
    NoDup twins.
Proof.
  intros Hs. eexists. split; [apply tag_entanglement_scan|].
  unfold TwinPairDetector_spec. rewrite !map_map.
  set (idx := filter (gap_two primes) (seq 0 (length primes - 1))).
  assert (Hidx : StronglySorted lt idx)
    by apply filter_sorted_gen, seq_sorted.
  assert (Hin : forall x, In x idx -> (S x < length primes)%nat).
  { intros x Hx. apply filter_In in Hx. destruct Hx as [Hx _].
    apply in_seq in Hx. lia. }
  assert (Hfst : StronglySorted Z.lt (map (fun i => fst (pair_at primes i)) idx)).
  { apply (map_sorted lt); [exact Hidx|].
    intros x y Hx Hy Hxy. apply Hin in Hx, Hy. cbn [pair_at fst].
    apply (sorted_nth_lt primes Hs x y); [exact Hxy| |];
      apply nth_error_nth'; lia. }
  split; [exact Hfst|]. split.
  - apply (map_sorted lt); [exact Hidx|].
    intros x y Hx Hy Hxy. apply Hin in Hx, Hy. cbn [pair_at snd].
    apply (sorted_nth_lt primes Hs (S x) (S y)); [lia| |];
      apply nth_error_nth'; lia.
  - apply (NoDup_map_inv fst). rewrite map_map.
    apply sorted_NoDup, Hfst.
Qed.

Lemma tag_entanglement_increasing_witness :
  exists twins,
    tag_entanglement [3; 5; 7] = Ok twins /\
    StronglySorted Z.lt (map fst twins) /\ NoDup twins.
Proof.
  destruct (tag_entanglement_increasing [3; 5; 7]) as (twins & Ht & Hf & _ & Hn).
  - repeat constructor.
  - exists twins. tauto.
Defined.

(** ** Growing the bound *)

Section Growing.

Lemma shifted_seq (len s t : nat) (a b : Z) :
  a + Z.of_nat s = b + Z.of_nat t ->
  map (fun k => a + Z.of_nat k) (seq s len) =
  map (fun k => b + Z.of_nat k) (seq t len).
Proof.
  revert s t. induction len as [|len IH]; intros s t H; simpl.
  - reflexivity.
  - f_equal; [exact H|]. apply IH. lia.
Qed.

Lemma py_range_app (a b c : Z) :
  a <= b <= c -> py_range a c = py_range a b ++ py_range b c.
Proof.
  intros H. unfold py_range.
  replace (Z.to_nat (c - a))
    with (Z.to_nat (b - a) + Z.to_nat (c - b))%nat by lia.
  rewrite seq_app, map_app. f_equal. apply shifted_seq. lia.
Qed.

Lemma sieve_app (n m : Z) :
  n <= m ->
  sieve m = sieve n ++ filter no_divisor (py_range (Z.max 2 n) m).
Proof.
  intros H. destruct (Z.le_gt_cases n 2) as [Hn|Hn].
  - rewrite (sieve_small n Hn). now replace (Z.max 2 n) with 2 by lia.
  - replace (Z.max 2 n) with n by lia. unfold sieve.
    rewrite (py_range_app 2 n m) by lia. apply filter_app.
Qed.

Lemma sieve_nth_stable (n m : Z) (i : nat) (p : Z) :
  n <= m -> nth_error (sieve n) i = Some p -> nth_error (sieve m) i = Some p.
Proof.
  intros H Hi. rewrite (sieve_app n m H).
  rewrite nth_error_app1; [exact Hi|].
  apply nth_error_Some. congruence.
Qed.

End Growing.

(** X4.  Raising the bound only appends: the sieve of a larger bound is the
    sieve of the smaller one followed by the primes found from there on, so
    every prime keeps its position. *)
Theorem sieve_extends (n m : Z) :
  n <= m ->
  sieve m = sieve n ++ filter no_divisor (py_range (Z.max 2 n) m) /\
  (length (sieve n) <= length (sieve m))%nat /\
  (forall i p, nth_error (sieve n) i = Some p ->
     nth_error (sieve m) i = Some p).
Proof.
  intros H. split; [now apply sieve_app|]. split.
  - rewrite (sieve_app n m H), length_app. lia.
  - intros i p. now apply sieve_nth_stable.
Qed.

Lemma sieve_extends_witness :
  sieve 30 = sieve 10 ++ filter no_divisor (py_range (Z.max 2 10) 30) /\
  nth_error (sieve 30) 3 = Some 7.
Proof.
  destruct (sieve_extends 10 30 ltac:(lia)) as (Happ & _ & Hnth).
  split; [exact Happ|]. apply Hnth. reflexivity.
Defined.

(** ** Tags of primes *)

Section PrimeTags.

Lemma prime_multiple (p k : Z) :
  Z.prime p -> 1 < k -> p mod k = 0 -> p = k.
Proof.
  intros [H1 Hp] Hk Hmod.
  destruct (Z.eq_dec p k) as [|Hne]; [assumption|]. exfalso.
  pose proof (Z.div_mod p k ltac:(lia)) as Hdm.
  rewrite Hmod, Z.add_0_r in Hdm.
  set (q := p / k) in Hdm.
  assert (Hq0 : 0 < q) by nia.
  assert (Hq1 : q <> 1) by (intros Hq; rewrite Hq in Hdm; lia).
  apply (Hp k).
  - split; [lia|]. nia.
  - exists q. lia.
Qed.

Lemma prime_dim (p : Z) :
  Z.prime p ->
  (dim_of p = 5 <-> p = 13) /\
  (dim_of p = 3 <-> p = 5) /\
  (dim_of p = 2 <-> p <> 5 /\ p <> 13).
Proof.
  intros Hp. unfold dim_of.
  destruct (Z.eqb_spec (p mod 13) 0) as [H13|H13].
  - apply (prime_multiple p 13 Hp) in H13; [|lia]. subst p. intuition lia.
  - assert (Hn13 : p <> 13) by (intros ->; now apply H13).
    destruct (Z.eqb_spec (p mod 5) 0) as [H5|H5].
    + apply (prime_multiple p 5 Hp) in H5; [|lia]. subst p. intuition lia.
    + assert (Hn5 : p <> 5) by (intros ->; now apply H5).
      intuition lia.
Qed.

End PrimeTags.

(** X5.  In the result of [generate_resonance_spiral] the tag at the
    position of a prime is five only for the prime thirteen, three only for
    the prime five, and two for every other prime. *)
Theorem spiral_tags_of_primes (n : Z) (i : nat) (p : Z) :
  nth_error (sieve n) i = Some p ->
  exists s d,
    generate_resonance_spiral n = Ok s /\
    nth_error (sp_dimensions s) i = Some d /\
    (d = 5 <-> p = 13) /\
    (d = 3 <-> p = 5) /\
    (d = 2 <-> p <> 5 /\ p <> 13).
Proof.
  intros Hi. eexists. exists (dim_of p).
  split; [apply generate_resonance_spiral_entries|].
  cbn [sp_dimensions]. split; [now apply map_at|].
  apply prime_dim. apply (sieve_nth_prime n i p Hi).
Qed.

Lemma spiral_tags_of_primes_witness :
  exists s d,
    generate_resonance_spiral 100 = Ok s /\
    nth_error (sp_dimensions s) 9 = Some d /\ d = 2.
Proof.
  destruct (spiral_tags_of_primes 100 9 29 eq_refl)
    as (s & d & Hs & Hd & _ & _ & H2).
  exists s, d. split; [exact Hs|]. split; [exact Hd|].
  apply H2. lia.
Defined.

(** ** The shape of the point cloud *)

Section Cloud.

Open Scope R_scope.

Lemma scaled_bound (r c : R) : 0 <= r -> -1 <= c <= 1 -> Rabs (r * c) <= r.
Proof. intros Hr Hc. apply Rabs_le. nra. Qed.

Lemma entry_bounds (p : Z) :
  (0 <= p)%Z ->
  Rabs (entry_x p) <= sqrt (IZR p) /\
  Rabs (entry_y p) <= sqrt (IZR p) /\
  Rabs (entry_z p) <= IZR p.
Proof.
  intros Hp. apply IZR_le in Hp.
  unfold entry_x, entry_y, entry_z.
  split; [apply scaled_bound; [apply sqrt_pos|apply COS_bound]|].
  split; [apply scaled_bound; [apply sqrt_pos|apply SIN_bound]|].
  apply scaled_bound; [exact Hp|apply SIN_bound].
Qed.

End Cloud.

(** X6.  Two different positions of the spiral never hold the same point:
    their [(x, y)] coordinates already differ. *)
Theorem spiral_points_distinct (n : Z) (i j : nat) (p q : Z) :
  nth_error (sieve n) i = Some p ->
  nth_error (sieve n) j = Some q ->
  i <> j ->
  exists s xi yi xj yj,
    generate_resonance_spiral n = Ok s /\
    nth_error (sp_x s) i = Some xi /\ nth_error (sp_y s) i = Some yi /\
    nth_error (sp_x s) j = Some xj /\ nth_error (sp_y s) j = Some yj /\
    (xi, yi) <> (xj, yj).
Proof.
  intros Hi Hj Hne. eexists.
  exists (entry_x p), (entry_y p), (entry_x q), (entry_y q).
  split; [apply generate_resonance_spiral_entries|].
  cbn [sp_x sp_y]. repeat (split; [now apply map_at|]).
  intros Heq. injection Heq as Hx Hy. apply Hne.
  pose proof (sieve_nth_prime n i p Hi) as [Hp _].
  pose proof (sieve_nth_prime n j q Hj) as [Hq _].
  pose proof (entry_radius p ltac:(lia)) as Rp.
  pose proof (entry_radius q ltac:(lia)) as Rq.
  rewrite Hx, Hy, Rq in Rp. apply eq_IZR in Rp. subst q.
  pose proof (sorted_NoDup _ (sieve_sorted n)) as Hnd.
  apply (proj1 (NoDup_nth_error (sieve n)) Hnd).
  - apply nth_error_Some. congruence.
  - congruence.
Qed.

Lemma spiral_points_distinct_witness :
  exists s xi yi xj yj,
    generate_resonance_spiral 10 = Ok s /\
    nth_error (sp_x s) 0 = Some xi /\ nth_error (sp_y s) 0 = Some yi /\
    nth_error (sp_x s) 2 = Some xj /\ nth_error (sp_y s) 2 = Some yj /\
    (xi, yi) <> (xj, yj).
Proof.
  apply (spiral_points_distinct 10 0 2 2 5); [reflexivity|reflexivity|lia].
Defined.

(** X7.  Every point of the spiral of bound [n] lies inside the cylinder of
    radius [sqrt n] and half-height [n] around the vertical axis: for the
    prime [p] of its position, [|x|] and [|y|] are at most [sqrt p],
    [|z|] is at most [p], and [x^2 + y^2 < n]. *)
Theorem spiral_in_cylinder (n : Z) (i : nat) (p : Z) :
  nth_error (sieve n) i = Some p ->
  exists s x y z,
    generate_resonance_spiral n = Ok s /\
    nth_error (sp_x s) i = Some x /\
    nth_error (sp_y s) i = Some y /\
    nth_error (sp_z s) i = Some z /\
    (Rabs x <= sqrt (IZR p))%R /\
    (Rabs y <= sqrt (IZR p))%R /\
    (Rabs z <= IZR p)%R /\
    (x * x + y * y < IZR n)%R /\
    (Rabs z < IZR n)%R.
Proof.
  intros Hi. pose proof (sieve_nth_prime n i p Hi) as [Hp _].
  eexists. exists (entry_x p), (entry_y p), (entry_z p).
  split; [apply generate_resonance_spiral_entries|].
  cbn [sp_x sp_y sp_z]. repeat (split; [now apply map_at|]).
  destruct (entry_bounds p ltac:(lia)) as (Hx & Hy & Hz).
  assert (Hpn : (IZR p < IZR n)%R) by (apply IZR_lt; lia).
  split; [exact Hx|]. split; [exact Hy|]. split; [exact Hz|].
  split; [rewrite entry_radius by lia; exact Hpn|].
  eapply Rle_lt_trans; [exact Hz|exact Hpn].
Qed.

Lemma spiral_in_cylinder_witness :
  exists s x y z,
    generate_resonance_spiral 10 = Ok s /\
    nth_error (sp_x s) 3 = Some x /\
    nth_error (sp_y s) 3 = Some y /\
    nth_error (sp_z s) 3 = Some z /\
    (x * x + y * y < 10)%R /\ (Rabs z <= 7)%R.
Proof.
  destruct (spiral_in_cylinder 10 3 7 eq_refl)
    as (s & x & y & z & Hs & Hx & Hy & Hz & _ & _ & Hb & Hr & _).
  exists s, x, y, z. tauto.
Defined.

(** ** The range of the tones *)

Section ToneRange.

Open Scope R_scope.

Lemma phi_spec_bounds : 3 / 2 < phi_spec < 2.
Proof.
  unfold phi_spec.
  pose proof (sqrt_pos 5) as H0.
  pose proof (sqrt_sqrt 5 ltac:(lra)) as H5.
  split; nra.
Qed.

Lemma div_lt_upper (a b c : R) : 0 < b -> a < c * b -> a / b < c.
Proof.
  intros Hb H. unfold Rdiv. apply Rmult_lt_reg_r with b; [exact Hb|].
  rewrite Rmult_assoc, Rinv_l; lra.
Qed.

Lemma div_gt_lower (a b c : R) : 0 < b -> c * b < a -> c < a / b.
Proof.
  intros Hb H. unfold Rdiv. apply Rmult_lt_reg_r with b; [exact Hb|].
  rewrite Rmult_assoc, Rinv_l; lra.
Qed.

Lemma tone_between (c x : R) (m k n : nat) :
  1 < x -> (m <= k <= n)%nat -> 0 < c ->
  c / x ^ n <= c / x ^ k <= c / x ^ m.
Proof.
  intros Hx [Hmk Hkn] Hc. unfold Rdiv.
  split; apply Rmult_le_compat_l; try lra;
    apply Rinv_le_contravar;
    try (apply pow_lt; lra); apply Rle_pow; try lra; assumption.
Qed.

Lemma dim_of_exponent (p : Z) : (2 <= Z.to_nat (dim_of p) <= 5)%nat.
Proof. destruct (dim_of_cases p) as [H|[H|H]]; rewrite H; lia. Qed.

Lemma ToneDeriver_spec_range (p : Z) :
  (0 < p)%Z ->
  528 * IZR p / phi_spec ^ 5 <= ToneDeriver_spec p (dim_of p)
    <= 528 * IZR p / phi_spec ^ 2.
Proof.
  intros Hp. apply IZR_lt in Hp. unfold ToneDeriver_spec.
  pose proof phi_spec_bounds as [Hphi _].
  apply tone_between; [lra|apply dim_of_exponent|lra].
Qed.

Lemma tone_13_below_11 : ToneDeriver_spec 13 5 < ToneDeriver_spec 11 2.
Proof.
  unfold ToneDeriver_spec.
  change (Z.to_nat 5) with 5%nat. change (Z.to_nat 2) with 2%nat.
  pose proof phi_spec_bounds as [Hlo Hhi].
  pose proof (pow_incr (3 / 2) phi_spec 5 ltac:(lra)) as H5.
  pose proof (pow_incr phi_spec 2 2 ltac:(lra)) as H2.
  pose proof (pow_lt phi_spec 5 ltac:(lra)) as P5.
  pose proof (pow_lt phi_spec 2 ltac:(lra)) as P2.
  apply Rlt_trans with 1000.
  - apply div_lt_upper; [exact P5|]. simpl in H5. lra.
  - apply div_gt_lower; [exact P2|]. simpl in H2. lra.
Qed.

End ToneRange.

(** X8.  Every tone is positive and below [528 * p]; more precisely it lies
    between [528 * p / phi^5] and [528 * p / phi^2] for the prime [p] of its
    position. *)
Theorem tone_range (n : Z) (i : nat) (p : Z) :
  nth_error (sieve n) i = Some p ->
  exists s t,
    generate_resonance_spiral n = Ok s /\
    nth_error (sp_tones s) i = Some t /\
    (0 < t < 528 * IZR p)%R /\
    (528 * IZR p / phi_spec ^ 5 <= t <= 528 * IZR p / phi_spec ^ 2)%R.
Proof.
  intros Hi. pose proof (sieve_nth_prime n i p Hi) as [Hp _].
  eexists. exists (entry_tone p).
  split; [apply generate_resonance_spiral_entries|].
  cbn [sp_tones]. split; [now apply map_at|].
  rewrite entry_tone_spec.
  pose proof (ToneDeriver_spec_range p ltac:(lia)) as [Hlo Hhi].
  assert (Hc : (0 < 528 * IZR p)%R)
    by (assert (0 < IZR p)%R by (apply IZR_lt; lia); lra).
  pose proof phi_spec_bounds as [Hphi _].
  pose proof (pow_lt phi_spec 5 ltac:(lra)) as P5.
  pose proof (Rlt_pow_R1 phi_spec 2 ltac:(lra) ltac:(lia)) as P2.
  split; [|split; assumption]. split.
  - eapply Rlt_le_trans; [|exact Hlo].
    apply div_gt_lower; [exact P5|lra].
  - eapply Rle_lt_trans; [exact Hhi|].
    apply div_lt_upper; [lra|nra].
Qed.

Lemma tone_range_witness :
  exists s t,
    generate_resonance_spiral 10 = Ok s /\
    nth_error (sp_tones s) 1 = Some t /\
    (0 < t < 528 * 3)%R.
Proof.
  destruct (tone_range 10 1 3 eq_refl) as (s & t & Hs & Ht & Hr & _).
  exists s, t. tauto.
Defined.

(** X9.  Across tags the tones are not ordered like the primes: as soon as
    the bound exceeds thirteen, the tone of thirteen (position five) is
    below the tone of eleven (position four). *)
Theorem tones_not_increasing (n : Z) :
  14 <= n ->
  exists s t11 t13,
    generate_resonance_spiral n = Ok s /\
    nth_error (sieve n) 4 = Some 11 /\
    nth_error (sieve n) 5 = Some 13 /\
    nth_error (sp_tones s) 4 = Some t11 /\
    nth_error (sp_tones s) 5 = Some t13 /\
    (t13 < t11)%R.
Proof.
  intros Hn.
  assert (H11 : nth_error (sieve n) 4 = Some 11)
    by (apply (sieve_nth_stable 14 n); [exact Hn|reflexivity]).
  assert (H13 : nth_error (sieve n) 5 = Some 13)
    by (apply (sieve_nth_stable 14 n); [exact Hn|reflexivity]).
  eexists. exists (entry_tone 11), (entry_tone 13).
  split; [apply generate_resonance_spiral_entries|].
  cbn [sp_tones]. split; [exact H11|]. split; [exact H13|].
  split; [now apply map_at|]. split; [now apply map_at|].
  rewrite !entry_tone_spec. apply tone_13_below_11.
Qed.

Lemma tones_not_increasing_witness :
  exists s t11 t13,
    generate_resonance_spiral 2350 = Ok s /\
    nth_error (sp_tones s) 4 = Some t11 /\
    nth_error (sp_tones s) 5 = Some t13 /\
    (t13 < t11)%R.
Proof.
  destruct (tones_not_increasing 2350 ltac:(lia))
    as (s & t11 & t13 & Hs & _ & _ & H11 & H13 & Hlt).
  exists s, t11, t13. tauto.
Defined.

(** X10.  Away from the primes five and thirteen the tones follow the
    positions: of two such primes of the sieve, the one at the earlier
    position has the smaller tone. *)
Theorem tones_follow_positions (n : Z) (i j : nat) (p q : Z) :
  nth_error (sieve n) i = Some p ->
  nth_error (sieve n) j = Some q ->
  (i < j)%nat ->
  p <> 5 -> p <> 13 -> q <> 5 -> q <> 13 ->
  exists s ti tj,
    generate_resonance_spiral n = Ok s /\
    nth_error (sp_tones s) i = Some ti /\
    nth_error (sp_tones s) j = Some tj /\
    (ti < tj)%R.
Proof.
  intros Hi Hj Hij Hp5 Hp13 Hq5 Hq13.
  eexists. exists (entry_tone p), (entry_tone q).
  split; [apply generate_resonance_spiral_entries|].
  cbn [sp_tones]. split; [now apply map_at|]. split; [now apply map_at|].
  rewrite !entry_tone_spec.
  pose proof (sieve_nth_prime n i p Hi) as [_ Pp].
  pose proof (sieve_nth_prime n j q Hj) as [_ Pq].
  destruct (prime_dim p Pp) as (_ & _ & Hdp).
  destruct (prime_dim q Pq) as (_ & _ & Hdq).
  rewrite (proj2 Hdp (conj Hp5 Hp13)), (proj2 Hdq (conj Hq5 Hq13)).
  apply ToneDeriver_spec_increasing.
  exact (sorted_nth_lt _ (sieve_sorted n) i j p q Hij Hi Hj).
Qed.

Lemma tones_follow_positions_witness :
  exists s ti tj,
    generate_resonance_spiral 20 = Ok s /\
    nth_error (sp_tones s) 1 = Some ti /\
    nth_error (sp_tones s) 6 = Some tj /\
    (ti < tj)%R.
Proof.
  apply (tones_follow_positions 20 1 6 3 17);
    [reflexivity|reflexivity|lia|lia|lia|lia|lia].
Defined.

(** ** Bridges of the driver *)

Section Bridges.

Lemma point_at_entries (l : list Z) (i : nat) (p : Z) :
  nth_error l i = Some p ->
  point_at (Spiral (map entry_x l) (map entry_y l) (map entry_z l)
              (map entry_tone l) (map dim_of l)) i =
  Some (SpiralProjector_spec p (dim_of p)).
Proof.
  intros Hi. unfold point_at. cbn [sp_x sp_y sp_z].
  rewrite (map_at entry_x l i p Hi), (map_at entry_y l i p Hi),
    (map_at entry_z l i p Hi).
  now rewrite entry_point_spec.
Qed.

Lemma twin_chain (a : Z) :
  Z.prime a -> Z.prime (a + 2) -> Z.prime (a + 4) -> a = 3.
Proof.
  intros Ha Hb Hc.
  pose proof (proj1 Ha) as Ha1.
  pose proof (Z.div_mod a 3 ltac:(lia)) as Hdm.
  pose proof (Z.mod_pos_bound a 3 ltac:(lia)) as Hm.
  assert (Hcases : a mod 3 = 0 \/ (a + 2) mod 3 = 0 \/ (a + 4) mod 3 = 0).
  { destruct (Z.eq_dec (a mod 3) 0) as [H0|H0]; [now left|].
    destruct (Z.eq_dec (a mod 3) 1) as [H1|H1].
    - right. left. apply Z.mod_divide; [lia|]. exists (a / 3 + 1). lia.
    - right. right. apply Z.mod_divide; [lia|]. exists (a / 3 + 2). lia. }
  destruct Hcases as [H|[H|H]].
  - now apply (prime_multiple a 3 Ha).
  - apply (prime_multiple (a + 2) 3 Hb) in H; lia.
  - apply (prime_multiple (a + 4) 3 Hc) in H; lia.
Qed.

End Bridges.

(** X11.  Every run of the driver returns as twins exactly the pairs of
    primes below 2350 that differ by two, and the two members of each twin
    stand at consecutive positions of the spiral it returns: the points read
    there are the projections of the two primes. *)
Theorem main_bridges (now : string) :
  exists r,
    main now = Ok r /\
    (forall a b, In (a, b) (run_twins r) <->
       Z.prime a /\ Z.prime b /\ b = a + 2 /\ b < 2350) /\
    (forall a b, In (a, b) (run_twins r) ->
       exists i,
         point_at (run_spiral r) i =
           Some (SpiralProjector_spec a (dim_of a)) /\
         point_at (run_spiral r) (S i) =
           Some (SpiralProjector_spec b (dim_of b))).
Proof.
  assert (Hsame : driver_primes = sieve default_n) by reflexivity.
  unfold main.
  rewrite generate_resonance_spiral_entries, Hsame. cbn [bind].
  rewrite tag_entanglement_scan. cbn [bind].
  eexists. split; [reflexivity|].
  cbn [run_twins run_spiral]. split.
  - intros a b. apply sieve_twins_In.
  - intros a b Hin. apply twin_spec_In in Hin.
    destruct Hin as (i & Ha & Hb & _).
    exists i. split; now apply point_at_entries.
Qed.

Lemma main_bridges_witness :
  exists r i,
    main "2024-03-01T09:30:00" = Ok r /\
    point_at (run_spiral r) i = Some (SpiralProjector_spec 3 2) /\
    point_at (run_spiral r) (S i) = Some (SpiralProjector_spec 5 3).
Proof.
  destruct (main_bridges "2024-03-01T09:30:00") as (r & Hr & Hiff & Hpos).
  assert (Hin : In (3, 5) (run_twins r)).
  { apply Hiff.
    split; [apply no_divisor_prime; [lia|reflexivity]|].
    split; [apply no_divisor_prime; [lia|reflexivity]|lia]. }
  destruct (Hpos 3 5 Hin) as (i & H3 & H5).
  exists r, i. split; [exact Hr|]. split; [exact H3|exact H5].
Defined.

(** X12.  Twins of the sieve chain only once: if [(a, b)] and [(b, c)] are
    both returned, they are [(3, 5)] and [(5, 7)], so five is the only prime
    that is a member of two twins. *)
Theorem twins_chain_once (n a b c : Z) (twins : list (Z * Z)) :
  tag_entanglement (sieve n) = Ok twins ->
  In (a, b) twins -> In (b, c) twins ->
  a = 3 /\ b = 5 /\ c = 7.
Proof.
  intros Ht Hab Hbc.
  rewrite tag_entanglement_scan in Ht. injection Ht as <-.
  apply sieve_twins_In in Hab. apply sieve_twins_In in Hbc.
  destruct Hab as (Ha & Hb & -> & _).
  destruct Hbc as (_ & Hc & -> & _).
  replace (a + 2 + 2) with (a + 4) in Hc by lia.
  pose proof (twin_chain a Ha Hb Hc). lia.
Qed.

Lemma twins_chain_once_witness :
  tag_entanglement (sieve 10) = Ok [(3, 5); (5, 7)] /\
  (3 = 3 /\ 5 = 5 /\ 7 = 7).
Proof.
  split; [reflexivity|].
  apply (twins_chain_once 10 3 5 7 [(3, 5); (5, 7)]);
    [reflexivity|simpl; tauto|simpl; tauto].
Defined.
